(** * spdx-checker: the example fixture and the scanner it is written for

    The repository's source is one C file, [examples/example.c]: an SPDX
    licence header followed by a [main] that prints three lines.  This
    development embeds

    - the file's text, byte for byte ([Fixture]);
    - the program [main] as a computation over an explicit process
      environment ([Program]);
    - the scanner that consumes such fixtures ([Scanner]).  Its code is not
      among the sources, so its definitions follow the specification's words
      and say so. *)

From Stdlib Require Import String Ascii List Bool Arith Lia ZArith.
From Stdlib Require Import Sorting.Sorted Sorting.Permutation.
From Stdlib Require Import DecimalString.
Import ListNotations.

Local Open Scope list_scope.
Local Open Scope string_scope.

(** ** Text utilities shared by the fixture and the scanner *)

Module Text.

Definition nl_char : ascii := "010"%char.
Definition nl : string := String nl_char "".
Definition dq : string := String "034"%char "".

(** Lines of a text: the pieces between line feeds.  A text that ends with a
    line feed has an empty last piece, which [lines] drops; a text that does
    not has a last line without terminator, which is kept. *)
Fixpoint pieces (s : string) : list string :=
  match s with
  | EmptyString => [EmptyString]
  | String c r =>
      if Ascii.eqb c nl_char then EmptyString :: pieces r
      else match pieces r with
           | [] => [String c EmptyString]
           | p :: ps => String c p :: ps
           end
  end.

Definition lines (s : string) : list string :=
  match rev (pieces s) with
  | EmptyString :: front => rev front
  | _ => pieces s
  end.

Fixpoint count_char (c : ascii) (s : string) : nat :=
  match s with
  | EmptyString => 0
  | String d r => (if Ascii.eqb c d then 1 else 0) + count_char c r
  end.

Fixpoint drop (n : nat) (s : string) : string :=
  match n, s with
  | S k, String _ r => drop k r
  | _, _ => s
  end.

Fixpoint take (n : nat) (s : string) : string :=
  match n, s with
  | S k, String c r => String c (take k r)
  | _, _ => EmptyString
  end.

Definition is_space (c : ascii) : bool :=
  Ascii.eqb c " "%char || Ascii.eqb c "009"%char || Ascii.eqb c "013"%char.

Fixpoint ltrim (s : string) : string :=
  match s with
  | String c r => if is_space c then ltrim r else s
  | EmptyString => EmptyString
  end.

Fixpoint rtrim (s : string) : string :=
  match s with
  | EmptyString => EmptyString
  | String c r =>
      match rtrim r with
      | EmptyString => if is_space c then EmptyString else String c EmptyString
      | r' => String c r'
      end
  end.

Definition trim (s : string) : string := rtrim (ltrim s).

(** First position at which [p] occurs in [s]. *)
Definition find (p s : string) : option nat := String.index 0 p s.

(** All positions at which [p] occurs in [s], ascending. *)
Fixpoint occurrences_from (i : nat) (p s : string) : list nat :=
  match s with
  | EmptyString => []
  | String _ r =>
      ((if String.prefix p s then [i] else []) ++ occurrences_from (S i) p r)%list
  end.

Definition occurrences (p s : string) : list nat := occurrences_from 0 p s.

End Text.

(** ** The fixture: [examples/example.c] *)

Module Fixture.
Import Text.

Definition path : string := "examples/example.c".

(** The file's text, one entry per line as an editor numbers them. *)
Definition example_c_lines : list string :=
  [ "/* SPDX-License-Identifier: MIT"
  ; " * Copyright (c) 2023 Example Corporation"
  ; " * Example Project"
  ; " */"
  ; ""
  ; "/**"
  ; " * Example C file demonstrating proper SPDX license header."
  ; " * This file shows how SPDX license declarations should be formatted"
  ; " * in C source code files."
  ; " */"
  ; ""
  ; "#include <stdio.h>"
  ; "#include <stdlib.h>"
  ; ""
  ; "/**"
  ; " * Main function demonstrating the SPDX scanner example."
  ; " * @return Exit code (0 for success)"
  ; " */"
  ; "int main(void) {"
  ; "    printf(" ++ dq ++ "This is an example C file with proper SPDX license header.\n" ++ dq ++ ");"
  ; "    printf(" ++ dq ++ "The SPDX scanner will recognize this as a valid license declaration.\n" ++ dq ++ ");"
  ; ""
  ; "    // Example functionality"
  ; "    const char* message = " ++ dq ++ "Hello, SPDX!" ++ dq ++ ";"
  ; "    printf(" ++ dq ++ "Message: %s\n" ++ dq ++ ", message);"
  ; ""
  ; "    return EXIT_SUCCESS;"
  ; "}" ].

(** The bytes of the file: its lines joined by line feeds.  The last line,
    the closing brace of [main], is followed by no line feed. *)
Definition example_c : string := Eval vm_compute in String.concat nl example_c_lines.

(** The files of the repository, by path. *)
Definition repository : list (string * string) := [ (path, example_c) ].

Definition line_count (text : string) : nat := List.length (lines text).

Definition is_c_source (p : string) : bool :=
  let n := String.length p in
  Nat.leb 2 n && String.eqb (drop (n - 2) p) ".c".

End Fixture.

(** ** The program: [main] of [examples/example.c] *)

Module Program.
Import Text.

(** What a process can observe and change: its standard input, its standard
    output (with the stream's error indicator: once set, writes fail and
    write nothing) and the files around it. *)
Record World := mkWorld {
  w_stdin : string;
  w_stdout : string;
  w_stdout_err : bool;
  w_files : list (string * string)
}.

(** Computations of the C program: a state monad over [World]. *)
Definition IO (A : Type) : Type := World -> A * World.

Definition ret {A} (a : A) : IO A := fun w => (a, w).
Definition bind {A B} (m : IO A) (k : A -> IO B) : IO B :=
  fun w => let (a, w') := m w in k a w'.

Notation "x <- m ;; k" := (bind m (fun x => k))
  (at level 61, m at next level, right associativity).
Notation "m ;; k" := (bind m (fun _ => k))
  (at level 61, right associativity).

(** [printf]'s formatting, for the conversions the program uses: [%s] takes
    the next argument, [%%] is a percent sign. *)
Fixpoint format (fmt : string) (args : list string) : string :=
  match fmt with
  | String "%" (String "s" r) =>
      match args with
      | a :: args' => a ++ format r args'
      | [] => format r []
      end
  | String "%" (String "%" r) => String "%" (format r args)
  | String c r => String c (format r args)
  | EmptyString => EmptyString
  end.

(** [printf]: the number of bytes written, or a negative value when the
    stream is in error.  [main] discards the value. *)
Definition printf (fmt : string) (args : list string) : IO Z :=
  fun w =>
    if w_stdout_err w then ((-1)%Z, w)
    else
      let out := format fmt args in
      (Z.of_nat (String.length out),
       mkWorld (w_stdin w) (w_stdout w ++ out) (w_stdout_err w) (w_files w)).

Definition EXIT_SUCCESS : Z := 0%Z.

(** [int main(void)]: the three calls' results are discarded, as in the
    source. *)
Definition main : IO Z :=
  printf ("This is an example C file with proper SPDX license header." ++ nl) [] ;;
  printf ("The SPDX scanner will recognize this as a valid license declaration." ++ nl) [] ;;
  let message := "Hello, SPDX!" in
  printf ("Message: %s" ++ nl) [message] ;;
  ret EXIT_SUCCESS.

(** The lines [main] writes when standard output works. *)
Definition main_output_lines : list string :=
  [ "This is an example C file with proper SPDX license header."
  ; "The SPDX scanner will recognize this as a valid license declaration."
  ; "Message: Hello, SPDX!" ].

Definition main_output : string :=
  String.concat "" (map (fun l => l ++ nl) main_output_lines).

End Program.

(** ** The scanner the fixture is written for

    The repository's scanner is not among the sources; the definitions of
    this module follow the specification, section by section. *)

Module Scanner.
Import Text.

(** *** Data model (specification, section 3) *)

Inductive CommentKind := LineComment | BlockComment.

(** Modelled from the spec: CommentBlock, the tokenizer's output record (the
    tokenizer is missing from the sources).  [cb_line] is the line of
    [cb_start], kept so that the parser can give declarations a line. *)
Record CommentBlock := mkBlock {
  cb_start : nat;
  cb_end : nat;
  cb_text : string;
  cb_kind : CommentKind;
  cb_line : nat
}.

Inductive TagKind :=
| LicenseIdentifier
| FileCopyrightText
| OtherTag (name : string).

Inductive LicenseExpr :=
| Ident (id : string)
| And (l r : LicenseExpr)
| Or (l r : LicenseExpr)
| With (e : LicenseExpr) (exception : string).

(** Modelled from the spec: SpdxDeclaration (the parser is missing from the
    sources).  [d_parsed] is the flag the report shows as [valid]. *)
Record SpdxDeclaration := mkDecl {
  d_tag : TagKind;
  d_value : string;
  d_expr : option LicenseExpr;
  d_line : nat;
  d_parsed : bool
}.

Inductive Severity := SevError | SevWarning.

(** The per-file conditions of the error taxonomy (section 7). *)
Inductive DiagKind := MalformedComment | ConflictingDeclaration | UnknownIdentifier.

Record Diagnostic := mkDiag {
  g_severity : Severity;
  g_kind : DiagKind;
  g_message : string;
  g_path : string;
  g_line : nat
}.

Inductive Verdict := Compliant | Missing | Invalid.

Record FileScanResult := mkResult {
  fr_path : string;
  fr_declarations : list SpdxDeclaration;
  fr_diagnostics : list Diagnostic;
  fr_verdict : Verdict
}.

Inductive Overall := Pass | Fail.

Record Summary := mkSummary {
  n_compliant : nat;
  n_missing : nat;
  n_invalid : nat
}.

Record ScanReport := mkReport {
  rep_files : list FileScanResult;
  rep_summary : Summary;
  rep_overall : Overall
}.

Definition tag_eqb (a b : TagKind) : bool :=
  match a, b with
  | LicenseIdentifier, LicenseIdentifier => true
  | FileCopyrightText, FileCopyrightText => true
  | OtherTag x, OtherTag y => String.eqb x y
  | _, _ => false
  end.

Definition is_error (g : Diagnostic) : bool :=
  match g_severity g with SevError => true | SevWarning => false end.

Definition kind_eqb (a b : DiagKind) : bool :=
  match a, b with
  | MalformedComment, MalformedComment => true
  | ConflictingDeclaration, ConflictingDeclaration => true
  | UnknownIdentifier, UnknownIdentifier => true
  | _, _ => false
  end.

Definition of_kind (k : DiagKind) (gs : list Diagnostic) : list Diagnostic :=
  filter (fun g => kind_eqb (g_kind g) k) gs.

Definition with_tag (t : TagKind) (ds : list SpdxDeclaration) : list SpdxDeclaration :=
  filter (fun d => tag_eqb (d_tag d) t) ds.

(** *** Comment-dialect tokenizer (section 4.1) *)

(** Modelled from the spec: the dialect descriptor, a line-comment prefix and
    block-comment delimiter pairs (the tokenizer is missing from the
    sources). *)
Record Dialect := mkDialect {
  line_prefix : option string;
  block_delims : list (string * string)
}.

Definition c_dialect : Dialect := mkDialect (Some "//") [("/*", "*/")].

(** A block comment whose closer has not been met yet. *)
Record OpenBlock := mkOpen {
  ob_closer : string;
  ob_start : nat;
  ob_line : nat;
  ob_text : string
}.

Fixpoint find_opener (delims : list (string * string)) (body : string)
  : option (string * string) :=
  match delims with
  | [] => None
  | (o, c) :: rest => if String.prefix o body then Some (o, c) else find_opener rest body
  end.

(** A line comment in [r], the part of line [ln] that starts at offset [off]:
    the prefix is honoured anywhere. *)
Definition line_comment (d : Dialect) (ln off : nat) (r : string) : list CommentBlock :=
  match line_prefix d with
  | Some p =>
      match find p r with
      | Some k =>
          [mkBlock (off + k) (off + String.length r)
                   (drop (k + String.length p) r) LineComment ln]
      | None => []
      end
  | None => []
  end.

(** One physical line [s], number [ln], starting at byte [off].  Outside a
    block comment an opener is honoured only at the start of the line, after
    white space; a block ends at the first closer. *)
Definition scan_line (d : Dialect) (st : option OpenBlock) (ln off : nat) (s : string)
  : list CommentBlock * option OpenBlock :=
  match st with
  | Some ob =>
      let c := ob_closer ob in
      match find c s with
      | Some k =>
          let e := off + k + String.length c in
          (mkBlock (ob_start ob) e (ob_text ob ++ nl ++ take k s) BlockComment (ob_line ob)
             :: line_comment d ln e (drop (k + String.length c) s), None)
      | None => ([], Some (mkOpen c (ob_start ob) (ob_line ob) (ob_text ob ++ nl ++ s)))
      end
  | None =>
      let body := ltrim s in
      let b := off + (String.length s - String.length body) in
      match find_opener (block_delims d) body with
      | Some (o, c) =>
          let after := drop (String.length o) body in
          match find c after with
          | Some k =>
              let e := b + String.length o + k + String.length c in
              (mkBlock b e (take k after) BlockComment ln
                 :: line_comment d ln e (drop (k + String.length c) after), None)
          | None => ([], Some (mkOpen c b ln after))
          end
      | None => (line_comment d ln off s, None)
      end
  end.

Fixpoint scan_lines (d : Dialect) (st : option OpenBlock) (ln off : nat) (ls : list string)
  : list CommentBlock * option OpenBlock :=
  match ls with
  | [] => ([], st)
  | s :: rest =>
      let '(here, st') := scan_line d st ln off s in
      let '(later, final) := scan_lines d st' (S ln) (off + String.length s + 1) rest in
      ((here ++ later)%list, final)
  end.

Definition malformed_comment (path : string) (ob : OpenBlock) : Diagnostic :=
  mkDiag SevError MalformedComment "unterminated block comment" path (ob_line ob).

(** Modelled from the spec: the tokenizer (missing from the sources).  The
    comment blocks of [text] in source order, with their text between the
    delimiters.  A block comment still open at the end of the file is
    reported as a [MalformedComment] diagnostic, never as a failure of the
    scan, and the text after its opener is still handed on as a block, so
    that scanning covers the rest of the file.  The condition is one of the
    failures of section 7 and, unlike [UnknownIdentifier], has no policy
    that lowers it: its severity is error. *)
Definition tokenize (d : Dialect) (path text : string)
  : list CommentBlock * list Diagnostic :=
  let '(blocks, final) := scan_lines d None 1 0 (lines text) in
  match final with
  | None => (blocks, [])
  | Some ob =>
      ((blocks ++ [mkBlock (ob_start ob) (String.length text) (ob_text ob)
                           BlockComment (ob_line ob)])%list,
       [malformed_comment path ob])
  end.

(** *** SPDX declaration parser (section 4.2) *)

Record TagLine := mkTag {
  t_tag : TagKind;
  t_value : string;
  t_line : nat
}.

Fixpoint drop_stars (s : string) : string :=
  match s with
  | String "*" r => drop_stars r
  | _ => s
  end.

(** The text of a comment line without its leading decoration. *)
Definition undecorate (s : string) : string := ltrim (drop_stars (ltrim s)).

Fixpoint has_space (s : string) : bool :=
  match s with
  | EmptyString => false
  | String c r => is_space c || has_space r
  end.

Definition tag_of_name (name : string) : TagKind :=
  if String.eqb name "License-Identifier" then LicenseIdentifier
  else if String.eqb name "FileCopyrightText" then FileCopyrightText
  else OtherTag name.

(** The word [Copyright] alone at the head of [body]: followed by white
    space or by the end of the line. *)
Definition copyright_notice (body : string) : bool :=
  String.prefix "Copyright" body &&
  match drop 9 body with
  | EmptyString => true
  | String c _ => is_space c
  end.

(** A tag line has the form [SPDX-<TagName>: <value>], with white space
    allowed on both sides of the colon.  A plain copyright notice, a line
    that opens with the word Copyright, is recorded as a copyright
    declaration too, with what follows the word as its value: the example of
    section 8 counts the one such line of the fixture as a recorded
    copyright declaration. *)
Definition parse_tag_line (s : string) : option (TagKind * string) :=
  let body := undecorate s in
  if String.prefix "SPDX-" body then
    let r := drop 5 body in
    match find ":" r with
    | Some k =>
        let name := rtrim (take k r) in
        if String.eqb name "" || has_space name then None
        else Some (tag_of_name name, trim (drop (S k) r))
    | None => None
    end
  else if copyright_notice body then Some (FileCopyrightText, trim (drop 9 body))
  else None.

Fixpoint tags_of_lines (ln : nat) (ls : list string) : list TagLine :=
  match ls with
  | [] => []
  | s :: rest =>
      match parse_tag_line s with
      | Some (t, v) => mkTag t v ln :: tags_of_lines (S ln) rest
      | None => tags_of_lines (S ln) rest
      end
  end.

(** One tag per physical line within a comment block. *)
Definition extract_tags (blocks : list CommentBlock) : list TagLine :=
  flat_map (fun b => tags_of_lines (cb_line b) (pieces (cb_text b))) blocks.

(** Tokens of a license expression: identifiers, the upper-case operators
    and parentheses. *)
Inductive Token := TId (id : string) | TAnd | TOr | TWith | TLParen | TRParen.

Definition word_token (w : string) : Token :=
  if String.eqb w "AND" then TAnd
  else if String.eqb w "OR" then TOr
  else if String.eqb w "WITH" then TWith
  else TId w.

Definition flush (cur : string) : list Token :=
  if String.eqb cur "" then [] else [word_token cur].

Fixpoint lex (cur : string) (s : string) : list Token :=
  match s with
  | EmptyString => flush cur
  | String c r =>
      if is_space c then (flush cur ++ lex "" r)%list
      else if Ascii.eqb c "("%char then (flush cur ++ TLParen :: lex "" r)%list
      else if Ascii.eqb c ")"%char then (flush cur ++ TRParen :: lex "" r)%list
      else lex (cur ++ String c "") r
  end.

(** The optional [WITH <exception-identifier>] that may follow a chain. *)
Definition with_suffix (e : LicenseExpr) (ts : list Token)
  : option (LicenseExpr * list Token) :=
  match ts with
  | TWith :: TId x :: r => Some (With e x, r)
  | TWith :: _ => None
  | _ => Some (e, ts)
  end.

(** [identifier (("AND"|"OR") identifier)*], where a parenthesised
    sub-expression may stand for an identifier.  Every call consumes a
    token, so the number of tokens bounds the depth. *)
Fixpoint parse_chain (fuel : nat) (ts : list Token) : option (LicenseExpr * list Token) :=
  match fuel with
  | O => None
  | S f =>
      let operand :=
        match ts with
        | TId x :: r => Some (Ident x, r)
        | TLParen :: r =>
            match parse_chain f r with
            | Some (e, r1) =>
                match with_suffix e r1 with
                | Some (e', TRParen :: r2) => Some (e', r2)
                | _ => None
                end
            | None => None
            end
        | _ => None
        end in
      match operand with
      | Some (a, TAnd :: r) =>
          match parse_chain f r with
          | Some (e, r') => Some (And a e, r')
          | None => None
          end
      | Some (a, TOr :: r) =>
          match parse_chain f r with
          | Some (e, r') => Some (Or a e, r')
          | None => None
          end
      | other => other
      end
  end.

Definition parse_expression (value : string) : option LicenseExpr :=
  let ts := lex "" value in
  match parse_chain (S (List.length ts)) ts with
  | Some (e, r) =>
      match with_suffix e r with
      | Some (e', []) => Some e'
      | _ => None
      end
  | None => None
  end.

(** The leaf identifiers of an expression, exceptions included. *)
Fixpoint leaves (e : LicenseExpr) : list string :=
  match e with
  | Ident x => [x]
  | And l r | Or l r => (leaves l ++ leaves r)%list
  | With e' x => (leaves e' ++ [x])%list
  end.

Definition known_id (known : list string) (x : string) : bool :=
  existsb (String.eqb x) known.

Definition policy_severity (strict : bool) : Severity :=
  if strict then SevError else SevWarning.

Definition unknown_identifier (strict : bool) (path : string) (ln : nat) (x : string)
  : Diagnostic :=
  mkDiag (policy_severity strict) UnknownIdentifier ("unknown identifier " ++ x) path ln.

(** The License-Identifier tags after the first of a file, [later], are
    recorded in one diagnostic, at the line of the first of them, that lists
    their values; there is none when the file has no such tag. *)
Definition conflicting_declaration (path : string) (later : list TagLine)
  : list Diagnostic :=
  match later with
  | [] => []
  | t :: _ =>
      [mkDiag SevError ConflictingDeclaration
              ("conflicting declarations: " ++ String.concat ", " (map t_value later))
              path (t_line t)]
  end.

(** A License-Identifier tag: its expression is parsed and every leaf is
    looked up in the known set.  An unknown leaf gives a diagnostic and the
    declaration is recorded with [parsed] false; so is a value outside the
    grammar, for which the specification names no diagnostic. *)
Definition license_declaration (strict : bool) (known : list string) (path : string)
  (t : TagLine) : SpdxDeclaration * list Diagnostic :=
  match parse_expression (t_value t) with
  | Some e =>
      let unknown := filter (fun x => negb (known_id known x)) (leaves e) in
      (mkDecl LicenseIdentifier (t_value t) (Some e) (t_line t)
              (match unknown with [] => true | _ => false end),
       map (unknown_identifier strict path (t_line t)) unknown)
  | None => (mkDecl LicenseIdentifier (t_value t) None (t_line t) false, [])
  end.

(** Tags other than License-Identifier are recorded verbatim; a copyright
    value is checked for non-emptiness only. *)
Definition plain_declaration (t : TagLine) : SpdxDeclaration :=
  mkDecl (t_tag t) (t_value t) None (t_line t)
         (match t_tag t with
          | FileCopyrightText => negb (String.eqb (t_value t) "")
          | _ => true
          end).

(** The tags of one file in source order; [seen] tells whether a
    License-Identifier tag came before.  The first one is kept; a later one
    gives no declaration. *)
Fixpoint interpret (strict : bool) (known : list string) (path : string) (seen : bool)
  (tags : list TagLine) : list SpdxDeclaration * list Diagnostic :=
  match tags with
  | [] => ([], [])
  | t :: rest =>
      match t_tag t with
      | LicenseIdentifier =>
          let '(ds, gs) := interpret strict known path true rest in
          if seen then (ds, gs)
          else
            let '(d, g) := license_declaration strict known path t in
            (d :: ds, (g ++ gs)%list)
      | _ =>
          let '(ds, gs) := interpret strict known path seen rest in
          (plain_declaration t :: ds, gs)
      end
  end.

Definition is_license_tag (t : TagLine) : bool := tag_eqb (t_tag t) LicenseIdentifier.

(** Modelled from the spec: the declaration parser (missing from the
    sources): from the comment blocks of one file to its declarations and
    diagnostics.  Duplicate License-Identifier tags give one
    ConflictingDeclaration diagnostic for the file: the later tags are
    recorded in it and nowhere else. *)
Definition parse_declarations (strict : bool) (known : list string) (path : string)
  (blocks : list CommentBlock) : list SpdxDeclaration * list Diagnostic :=
  let tags := extract_tags blocks in
  let '(ds, gs) := interpret strict known path false tags in
  (ds, (gs ++ conflicting_declaration path (tl (filter is_license_tag tags)))%list).

(** *** File classifier (section 4.3) *)

(** Modelled from the spec: the configuration of one run (the orchestrator
    and the classifier are missing from the sources): policy, the injected
    known-identifier set, exclusion globs, the extension-to-dialect mapping
    and the number of leading bytes probed for a NUL. *)
Record Config := mkConfig {
  cfg_strict : bool;
  cfg_known : list string;
  cfg_excludes : list string;
  cfg_dialects : list (string * Dialect);
  cfg_probe : nat
}.

(** Glob-style patterns: a star stands for any run of characters, a question
    mark for one character. *)
Fixpoint glob_match (p s : string) : bool :=
  match p with
  | EmptyString => match s with EmptyString => true | _ => false end
  | String "*" p' =>
      (fix star (t : string) : bool :=
         glob_match p' t ||
         match t with
         | EmptyString => false
         | String _ t' => star t'
         end) s
  | String "?" p' =>
      match s with
      | String _ s' => glob_match p' s'
      | EmptyString => false
      end
  | String c p' =>
      match s with
      | String c' s' => Ascii.eqb c c' && glob_match p' s'
      | EmptyString => false
      end
  end.

(** The extension of a path: what follows the last dot of its last
    component. *)
Fixpoint extension_from (cur : option string) (p : string) : option string :=
  match p with
  | EmptyString => cur
  | String c r =>
      if Ascii.eqb c "/"%char then extension_from None r
      else if Ascii.eqb c "."%char then extension_from (Some "") r
      else extension_from (option_map (fun e => e ++ String c "") cur) r
  end.

Definition extension (p : string) : option string := extension_from None p.

Fixpoint lookup_dialect (ext : string) (m : list (string * Dialect)) : option Dialect :=
  match m with
  | [] => None
  | (e, d) :: rest => if String.eqb e ext then Some d else lookup_dialect ext rest
  end.

Definition looks_binary (probe : nat) (content : string) : bool :=
  negb (count_char "000"%char (take probe content) =? 0)%nat.

(** Modelled from the spec: the classifier (missing from the sources).  The
    dialect of an eligible file, [None] for an ineligible one: exclusion
    first, then the extension lookup, then the binary-content heuristic. *)
Definition classify (cfg : Config) (path content : string) : option Dialect :=
  if existsb (fun g => glob_match g path) (cfg_excludes cfg) then None
  else
    match extension path with
    | None => None
    | Some e =>
        match lookup_dialect e (cfg_dialects cfg) with
        | None => None
        | Some d => if looks_binary (cfg_probe cfg) content then None else Some d
        end
    end.

Definition eligible (cfg : Config) (f : string * string) : bool :=
  match classify cfg (fst f) (snd f) with Some _ => true | None => false end.

(** *** Scan orchestrator (section 4.4) *)

Definition has_valid_license (ds : list SpdxDeclaration) : bool :=
  existsb (fun d => tag_eqb (d_tag d) LicenseIdentifier && d_parsed d) ds.

Definition has_error (gs : list Diagnostic) : bool := existsb is_error gs.

(** Modelled from the spec: verdict assignment (the orchestrator is missing
    from the sources).  No declaration at all is [Missing]; otherwise the
    file is [Compliant] when a License-Identifier declaration is valid and no
    diagnostic is an error, and [Invalid] when not. *)
Definition assign_verdict (ds : list SpdxDeclaration) (gs : list Diagnostic) : Verdict :=
  match ds with
  | [] => Missing
  | _ :: _ => if has_valid_license ds && negb (has_error gs) then Compliant else Invalid
  end.

(** Modelled from the spec: the scan of one eligible file (missing from the
    sources): tokenizer, then parser, then the verdict; a function of the
    file alone. *)
Definition scan_file (cfg : Config) (path : string) (d : Dialect) (content : string)
  : FileScanResult :=
  let '(blocks, tgs) := tokenize d path content in
  let '(ds, pgs) := parse_declarations (cfg_strict cfg) (cfg_known cfg) path blocks in
  let gs := (tgs ++ pgs)%list in
  mkResult path ds gs (assign_verdict ds gs).

(** The result of a file, if it is eligible. *)
Definition scan_entry (cfg : Config) (f : string * string) : list FileScanResult :=
  match classify cfg (fst f) (snd f) with
  | Some d => [scan_file cfg (fst f) d (snd f)]
  | None => []
  end.

(** Files in lexicographic path order, by insertion. *)
Fixpoint insert_by_path (f : string * string) (l : list (string * string))
  : list (string * string) :=
  match l with
  | [] => [f]
  | g :: rest =>
      if String.leb (fst f) (fst g) then f :: l else g :: insert_by_path f rest
  end.

Fixpoint sort_by_path (l : list (string * string)) : list (string * string) :=
  match l with
  | [] => []
  | f :: rest => insert_by_path f (sort_by_path rest)
  end.

Definition verdict_eqb (a b : Verdict) : bool :=
  match a, b with
  | Compliant, Compliant | Missing, Missing | Invalid, Invalid => true
  | _, _ => false
  end.

Definition count_verdict (v : Verdict) (rs : list FileScanResult) : nat :=
  List.length (filter (fun r => verdict_eqb (fr_verdict r) v) rs).

Definition overall_of (rs : list FileScanResult) : Overall :=
  if forallb (fun r => verdict_eqb (fr_verdict r) Compliant) rs then Pass else Fail.

(** Modelled from the spec: the orchestrator (missing from the sources).
    [files] are the files of the tree with their contents, in whatever order
    the file system enumerates them; the report lists the eligible ones in
    path order. *)
Definition scan (cfg : Config) (files : list (string * string)) : ScanReport :=
  let rs := flat_map (scan_entry cfg) (sort_by_path files) in
  mkReport rs
           (mkSummary (count_verdict Compliant rs) (count_verdict Missing rs)
                      (count_verdict Invalid rs))
           (overall_of rs).

(** *** Result reporter (section 4.5) and invocation (section 6) *)

Definition nat_to_string (n : nat) : string := NilZero.string_of_uint (Nat.to_uint n).

(** JSON string literal: quotes, backslashes and line feeds are escaped. *)
Fixpoint json_escape (s : string) : string :=
  match s with
  | EmptyString => EmptyString
  | String c r =>
      if Ascii.eqb c "034"%char then "\" ++ dq ++ json_escape r
      else if Ascii.eqb c "\"%char then "\\" ++ json_escape r
      else if Ascii.eqb c nl_char then "\n" ++ json_escape r
      else String c (json_escape r)
  end.

Definition json_string (s : string) : string := dq ++ json_escape s ++ dq.
Definition json_field (k v : string) : string := json_string k ++ ":" ++ v.
Definition json_object (fields : list string) : string := "{" ++ String.concat "," fields ++ "}".
Definition json_array (items : list string) : string := "[" ++ String.concat "," items ++ "]".
Definition json_bool (b : bool) : string := if b then "true" else "false".

Definition tag_name (t : TagKind) : string :=
  match t with
  | LicenseIdentifier => "SPDX-License-Identifier"
  | FileCopyrightText => "SPDX-FileCopyrightText"
  | OtherTag n => "SPDX-" ++ n
  end.

Definition verdict_name (v : Verdict) : string :=
  match v with Compliant => "compliant" | Missing => "missing" | Invalid => "invalid" end.

Definition overall_name (o : Overall) : string :=
  match o with Pass => "pass" | Fail => "fail" end.

Definition severity_name (s : Severity) : string :=
  match s with SevError => "error" | SevWarning => "warning" end.

Definition json_declaration (d : SpdxDeclaration) : string :=
  json_object [ json_field "tag" (json_string (tag_name (d_tag d)))
              ; json_field "value" (json_string (d_value d))
              ; json_field "valid" (json_bool (d_parsed d)) ].

Definition json_diagnostic (g : Diagnostic) : string :=
  json_object [ json_field "severity" (json_string (severity_name (g_severity g)))
              ; json_field "message" (json_string (g_message g))
              ; json_field "line" (nat_to_string (g_line g)) ].

Definition json_result (r : FileScanResult) : string :=
  json_object [ json_field "path" (json_string (fr_path r))
              ; json_field "verdict" (json_string (verdict_name (fr_verdict r)))
              ; json_field "declarations" (json_array (map json_declaration (fr_declarations r)))
              ; json_field "diagnostics" (json_array (map json_diagnostic (fr_diagnostics r))) ].

(** Modelled from the spec: the structured output (the reporter is missing
    from the sources): an object with [overallVerdict] and [files]. *)
Definition to_json (r : ScanReport) : string :=
  json_object [ json_field "overallVerdict" (json_string (overall_name (rep_overall r)))
              ; json_field "files" (json_array (map json_result (rep_files r))) ].


(** Modelled from the spec: one invocation (the command line is missing from
    the sources).  [inv_root] is the listing of the root path with the
    files' contents, [None] when the root cannot be read; [inv_known] is the
    known-licenses file as loaded, [None] when it is malformed. *)
Record Invocation := mkInvocation {
  inv_root : option (list (string * string));
  inv_known : option (list string);
  inv_strict : bool;
  inv_excludes : list string;
  inv_dialects : list (string * Dialect);
  inv_probe : nat;
  inv_json : bool
}.

Inductive Outcome :=
| ToolError (message : string)
| Completed (report : ScanReport).

Definition config_of (inv : Invocation) (known : list string) : Config :=
  mkConfig (inv_strict inv) known (inv_excludes inv) (inv_dialects inv) (inv_probe inv).

(** Modelled from the spec: the run (missing from the sources).  Only an
    unreadable root and a malformed known-licenses file are tool errors. *)
Definition run (inv : Invocation) : Outcome :=
  match inv_root inv, inv_known inv with
  | None, _ => ToolError "cannot read the root path"
  | Some _, None => ToolError "malformed known-licenses file"
  | Some files, Some known => Completed (scan (config_of inv known) files)
  end.




(** *** Notions the properties are stated with *)

(** A comment line that carries a plain copyright notice. *)
Definition copyright_line (s : string) : bool :=
  String.prefix "Copyright" (undecorate s).

(** No closer of the dialect's block comments occurs in the line [s]. *)
Definition closer_free (d : Dialect) (s : string) : Prop :=
  Forall (fun oc => find (snd oc) s = None) (block_delims d).

(** The line [l] starts, after white space, with a block-comment opener of
    the dialect. *)
Definition starts_block (d : Dialect) (l : string) : Prop :=
  exists o c, In (o, c) (block_delims d) /\ String.prefix o (ltrim l) = true.

(** A property of the text alone: some line starts, after white space, with
    a block-comment opener, and no closer occurs on that line or on any line
    after it. *)
Definition unclosed_block_opener (d : Dialect) (text : string) : Prop :=
  exists pre l rest,
    lines text = (pre ++ l :: rest)%list /\
    starts_block d l /\
    Forall (closer_free d) (l :: rest).

(** The open block, if any, waits for a closer of the dialect. *)
Definition waits_for_closer (d : Dialect) (st : option OpenBlock) : Prop :=
  match st with
  | Some ob => In (ob_closer ob) (map snd (block_delims d))
  | None => True
  end.

(** Bytes taken by whole lines, line feeds included. *)
Definition span (ls : list string) : nat :=
  fold_right (fun s n => String.length s + 1 + n) 0 ls.

(** A valid License-Identifier declaration is among [ds]. *)
Definition valid_license_in (ds : list SpdxDeclaration) : Prop :=
  exists d, In d ds /\ d_tag d = LicenseIdentifier /\ d_parsed d = true.

(** A diagnostic of severity error is among [gs]. *)
Definition error_in (gs : list Diagnostic) : Prop :=
  exists g, In g gs /\ g_severity g = SevError.

(** Lexicographic order of paths, on files and on results. *)
Definition path_le (f g : string * string) : Prop := String.leb (fst f) (fst g) = true.

Definition result_le (a b : FileScanResult) : Prop :=
  String.leb (fr_path a) (fr_path b) = true.


(** A header whose block comment is never closed. *)
Definition unclosed_header : string :=
  "/* SPDX-License-Identifier: MIT" ++ nl ++ "int main(void) { return 0; }".

(** A valid header, then a block comment that opens in the middle of a line
    and is never closed. *)
Definition unclosed_midline : string :=
  "// SPDX-License-Identifier: MIT" ++ nl ++ "int x; /* never closed".



(** The configuration the examples use. *)
Definition default_config : Config :=
  mkConfig false ["MIT"; "Apache-2.0"; "GPL-2.0-only"] []
           [("c", c_dialect); ("h", c_dialect)] 512.

End Scanner.

(** ** The program run again and again *)

Module Runs.
Import Text Program.

(** [n] executions of [main] one after the other in the same environment,
    with the exit code of each. *)
Fixpoint run_times (n : nat) : IO (list Z) :=
  match n with
  | O => ret []
  | S k =>
      code <- main ;;
      codes <- run_times k ;;
      ret (code :: codes)
  end.

(** [n] copies of a text, one after the other. *)
Fixpoint copies (n : nat) (s : string) : string :=
  match n with
  | O => EmptyString
  | S k => s ++ copies k s
  end.

End Runs.

(** * Properties *)

Import Text.

(** ** The fixture's text *)

Section FixtureText.
Import Fixture.

Lemma example_c_size : String.length example_c = 721.
Proof. vm_compute. reflexivity. Qed.

Lemma example_c_lines_eq : lines example_c = example_c_lines.
Proof. vm_compute. reflexivity. Qed.

Lemma example_c_line_feeds : count_char nl_char example_c = 27.
Proof. vm_compute. reflexivity. Qed.

(** C2, as stated, fails: the repository's one file does not have 27 lines. *)
Lemma repository_file_not_27_lines :
  ~ (List.length repository = 1 /\
     Forall (fun f => is_c_source (fst f) = true /\ line_count (snd f) = 27) repository).
Proof.
  intros [_ H]. inversion H as [|f l [_ Hn] _]; subst.
  vm_compute in Hn. discriminate Hn.
Qed.

(** C2, amended: the repository consists of exactly one C source file,
    [examples/example.c], and that file is 28 lines long: 27 lines ended by a
    line feed and a last line, the closing brace of [main], with none. *)
Theorem repository_one_file_28_lines :
  repository = [(path, example_c)] /\
  List.length repository = 1 /\
  Forall (fun f => is_c_source (fst f) = true /\ line_count (snd f) = 28) repository /\
  count_char nl_char example_c = 27 /\
  nth_error (lines example_c) 27 = Some "}" /\
  example_c = String.concat nl (lines example_c).
Proof.
  split; [reflexivity|]. split; [reflexivity|].
  split.
  { constructor; [|constructor]. split; vm_compute; reflexivity. }
  split; [exact example_c_line_feeds|].
  split; vm_compute; reflexivity.
Qed.

End FixtureText.

(** ** The program *)

Section MainProgram.
Import Program.

Lemma append_assoc (a b c : string) : (a ++ b) ++ c = a ++ (b ++ c).
Proof. induction a; simpl; congruence. Qed.

Lemma append_empty_r (a : string) : a ++ "" = a.
Proof. induction a; simpl; congruence. Qed.

(** C3: executing [main] changes nothing but standard output, to which it
    appends a fixed text of three lines (nothing when the stream is in
    error); standard input is not consumed and no file is touched.  The
    program is the straight sequence of three [printf] calls of the source:
    no scanning, parsing, state machine or concurrency. *)
Theorem main_only_writes_fixed_lines (w : World) :
  let w' := snd (main w) in
  w_stdin w' = w_stdin w /\
  w_files w' = w_files w /\
  w_stdout_err w' = w_stdout_err w /\
  w_stdout w' = w_stdout w ++ (if w_stdout_err w then "" else main_output) /\
  main_output_lines =
    [ "This is an example C file with proper SPDX license header."
    ; "The SPDX scanner will recognize this as a valid license declaration."
    ; "Message: Hello, SPDX!" ].
Proof.
  destruct w as [i o e fs]. unfold main, bind, ret, printf. simpl.
  destruct e; simpl.
  - repeat split. symmetry. apply append_empty_r.
  - repeat split. rewrite !append_assoc. reflexivity.
Qed.

(** C9: [main] returns [EXIT_SUCCESS], which is 0, in every environment:
    whatever standard input holds, whatever files exist and whether or not
    the writes to standard output succeed. *)
Theorem main_returns_exit_success (w : World) :
  fst (main w) = EXIT_SUCCESS /\ EXIT_SUCCESS = 0%Z.
Proof.
  split; [|reflexivity].
  unfold main, bind, ret, printf.
  destruct (w_stdout_err w) eqn:E; simpl; rewrite ?E; simpl; rewrite ?E; reflexivity.
Qed.

End MainProgram.

(** ** The fixture under the scanner *)

Section FixtureScan.
Import Fixture Scanner.

(** The comment blocks of the fixture. *)
Lemma fixture_tokens p :
  tokenize c_dialect p example_c =
  ([ mkBlock 0 96
       (" SPDX-License-Identifier: MIT" ++ nl ++
        " * Copyright (c) 2023 Example Corporation" ++ nl ++
        " * Example Project" ++ nl ++ " ")
       BlockComment 1
   ; mkBlock 98 261
       ("*" ++ nl ++
        " * Example C file demonstrating proper SPDX license header." ++ nl ++
        " * This file shows how SPDX license declarations should be formatted" ++ nl ++
        " * in C source code files." ++ nl ++ " ")
       BlockComment 6
   ; mkBlock 303 404
       ("*" ++ nl ++
        " * Main function demonstrating the SPDX scanner example." ++ nl ++
        " * @return Exit code (0 for success)" ++ nl ++ " ")
       BlockComment 15
   ; mkBlock 589 613 " Example functionality" LineComment 23 ],
   []).
Proof. vm_compute. reflexivity. Qed.

Lemma fixture_tags p :
  extract_tags (fst (tokenize c_dialect p example_c)) =
  [ mkTag LicenseIdentifier "MIT" 1
  ; mkTag FileCopyrightText "(c) 2023 Example Corporation" 2 ].
Proof. vm_compute. reflexivity. Qed.

Lemma fixture_declarations strict known p :
  known_id known "MIT" = true ->
  parse_declarations strict known p (fst (tokenize c_dialect p example_c)) =
  ([ mkDecl LicenseIdentifier "MIT" (Some (Ident "MIT")) 1 true
   ; mkDecl FileCopyrightText "(c) 2023 Example Corporation" None 2 true ], []).
Proof.
  intros Hk. unfold parse_declarations. rewrite fixture_tags.
  cbn [interpret t_tag]. unfold license_declaration.
  change (parse_expression (t_value (mkTag LicenseIdentifier "MIT" 1)))
    with (Some (Ident "MIT")).
  cbn [leaves filter]. rewrite Hk. reflexivity.
Qed.

(** The parser never reports a malformed comment: that is the tokenizer's. *)
Lemma interpret_no_malformed strict known p seen tags :
  of_kind MalformedComment (snd (interpret strict known p seen tags)) = [].
Proof.
  revert seen. induction tags as [|t rest IH]; intros seen; [reflexivity|].
  cbn [interpret]. destruct (t_tag t).
  - specialize (IH true). destruct (interpret strict known p true rest) as [ds gs].
    destruct seen.
    + exact IH.
    + destruct (license_declaration strict known p t) as [d g] eqn:E.
      cbn [snd]. unfold of_kind in *. rewrite filter_app. cbn [snd] in IH. rewrite IH.
      unfold license_declaration in E.
      destruct (parse_expression (t_value t)); inversion E; subst; clear E.
      * rewrite app_nil_r.
        induction (filter (fun x => negb (known_id known x)) (leaves l)); cbn; auto.
      * reflexivity.
  - specialize (IH seen). destruct (interpret strict known p seen rest). exact IH.
  - specialize (IH seen). destruct (interpret strict known p seen rest). exact IH.
Qed.

Lemma parse_no_malformed strict known p blocks :
  of_kind MalformedComment (snd (parse_declarations strict known p blocks)) = [].
Proof.
  unfold parse_declarations.
  pose proof (interpret_no_malformed strict known p false (extract_tags blocks)) as H.
  destruct (interpret _ _ _ _ _) as [ds gs]. cbn [snd] in *.
  unfold of_kind in *. rewrite filter_app, H.
  destruct (tl (filter is_license_tag (extract_tags blocks))); reflexivity.
Qed.

(** C10: every block-comment opener of the fixture (there are three, each at
    the start of a line) is followed by a closer before the end of the file;
    the tokenizer reports nothing for it, and no configuration makes its scan
    carry a MalformedComment diagnostic. *)
Theorem fixture_block_comments_closed :
  occurrences "/*" example_c = [0; 98; 303] /\
  occurrences "*/" example_c = [94; 259; 402] /\
  Forall (fun i => exists j, In j (occurrences "*/" example_c) /\ i + 2 <= j)
         (occurrences "/*" example_c) /\
  (forall p, snd (tokenize c_dialect p example_c) = []) /\
  (forall cfg p,
     of_kind MalformedComment (fr_diagnostics (scan_file cfg p c_dialect example_c)) = []).
Proof.
  assert (Ho : occurrences "/*" example_c = [0; 98; 303]) by (vm_compute; reflexivity).
  assert (Hc : occurrences "*/" example_c = [94; 259; 402]) by (vm_compute; reflexivity).
  split; [exact Ho|]. split; [exact Hc|]. split; [|split].
  - rewrite Ho, Hc. repeat constructor.
    + exists 94. split; [now left | lia].
    + exists 259. split; [right; now left | lia].
    + exists 402. split; [right; right; now left | lia].
  - intros p. rewrite fixture_tokens. reflexivity.
  - intros cfg p. unfold scan_file. rewrite fixture_tokens.
    match goal with
    | |- context [parse_declarations ?a ?b ?c ?bl] =>
        pose proof (parse_no_malformed a b c bl) as H;
        destruct (parse_declarations a b c bl) as [ds gs]
    end.
    cbn [snd] in H. cbn [fr_diagnostics app]. exact H.
Qed.

Lemma fixture_scan_file cfg p :
  known_id (cfg_known cfg) "MIT" = true ->
  scan_file cfg p c_dialect example_c =
  mkResult p
    [ mkDecl LicenseIdentifier "MIT" (Some (Ident "MIT")) 1 true
    ; mkDecl FileCopyrightText "(c) 2023 Example Corporation" None 2 true ]
    [] Compliant.
Proof.
  intros Hk. unfold scan_file.
  pose proof (fixture_declarations (cfg_strict cfg) (cfg_known cfg) p Hk) as H.
  destruct (tokenize c_dialect p example_c) as [blocks tgs] eqn:E.
  rewrite fixture_tokens in E. inversion E; subst blocks tgs; clear E.
  cbn [fst] in H. rewrite H. reflexivity.
Qed.

(** C1: the opening block comment of the fixture holds exactly one
    SPDX-License-Identifier tag line, with value MIT, and one copyright line.
    So, under any configuration that makes the file eligible as C and knows
    MIT, scanning it alone yields the overall verdict pass and one file
    result, compliant and without diagnostic, with one parsed
    License-Identifier declaration MIT and one recorded copyright
    declaration. *)
Theorem fixture_scan_compliant cfg p :
  classify cfg p example_c = Some c_dialect ->
  known_id (cfg_known cfg) "MIT" = true ->
  (exists b rest,
     fst (tokenize c_dialect p example_c) = b :: rest /\
     cb_kind b = BlockComment /\ cb_start b = 0 /\ cb_line b = 1 /\
     tags_of_lines 1 (pieces (cb_text b)) =
       [ mkTag LicenseIdentifier "MIT" 1
       ; mkTag FileCopyrightText "(c) 2023 Example Corporation" 2 ] /\
     filter copyright_line (pieces (cb_text b)) =
       [" * Copyright (c) 2023 Example Corporation"]) /\
  let rep := scan cfg [(p, example_c)] in
  rep_overall rep = Pass /\
  rep_summary rep = mkSummary 1 0 0 /\
  exists r,
    rep_files rep = [r] /\
    fr_path r = p /\
    fr_verdict r = Compliant /\
    fr_diagnostics r = [] /\
    with_tag LicenseIdentifier (fr_declarations r) =
      [mkDecl LicenseIdentifier "MIT" (Some (Ident "MIT")) 1 true] /\
    with_tag FileCopyrightText (fr_declarations r) =
      [mkDecl FileCopyrightText "(c) 2023 Example Corporation" None 2 true] /\
    List.length (fr_declarations r) = 2.
Proof.
  intros Hc Hk. split.
  - rewrite fixture_tokens. eexists. eexists. split; [reflexivity|].
    repeat (split; [vm_compute; reflexivity|]). vm_compute. reflexivity.
  - assert (E : flat_map (scan_entry cfg) (sort_by_path [(p, example_c)]) =
                [scan_file cfg p c_dialect example_c]).
    { cbn [sort_by_path insert_by_path flat_map]. unfold scan_entry. cbn [fst snd].
      rewrite Hc. reflexivity. }
    unfold scan. rewrite E, (fixture_scan_file cfg p Hk).
    cbn [rep_overall rep_files rep_summary].
    split; [reflexivity|]. split; [reflexivity|].
    eexists. split; [reflexivity|].
    cbn [fr_path fr_verdict fr_diagnostics fr_declarations].
    repeat (split; [reflexivity|]). reflexivity.
Qed.

(** The fixture under the default configuration, at its own path. *)
Lemma fixture_scan_compliant_witness :
  classify default_config path example_c = Some c_dialect /\
  known_id (cfg_known default_config) "MIT" = true /\
  rep_overall (scan default_config [(path, example_c)]) = Pass /\
  rep_summary (scan default_config [(path, example_c)]) = mkSummary 1 0 0.
Proof.
  assert (Hc : classify default_config path example_c = Some c_dialect)
    by (vm_compute; reflexivity).
  assert (Hk : known_id (cfg_known default_config) "MIT" = true) by reflexivity.
  split; [exact Hc|]. split; [exact Hk|].
  destruct (fixture_scan_compliant default_config path Hc Hk) as [_ [H1 [H2 _]]].
  split; assumption.
Defined.

End FixtureScan.

(** ** Verdicts *)

Section Verdicts.
Import Scanner.

Lemma tag_eqb_eq a b : tag_eqb a b = true <-> a = b.
Proof.
  destruct a, b; cbn; split; intros H; try congruence; try discriminate.
  - apply String.eqb_eq in H. congruence.
  - inversion H. apply String.eqb_refl.
Qed.

Lemma has_valid_license_iff ds : has_valid_license ds = true <-> valid_license_in ds.
Proof.
  unfold has_valid_license, valid_license_in. rewrite existsb_exists.
  split; intros [d [Hin H]]; exists d; split; auto.
  - apply andb_true_iff in H. destruct H as [Ht Hp].
    apply tag_eqb_eq in Ht. auto.
  - destruct H as [Ht Hp]. rewrite Ht, Hp. reflexivity.
Qed.

Lemma has_error_iff gs : has_error gs = true <-> error_in gs.
Proof.
  unfold has_error, error_in, is_error. rewrite existsb_exists.
  split; intros [g [Hin H]]; exists g; split; auto.
  - destruct (g_severity g); [reflexivity | discriminate].
  - rewrite H. reflexivity.
Qed.

Lemma assign_verdict_spec ds gs :
  (assign_verdict ds gs = Compliant <-> valid_license_in ds /\ ~ error_in gs) /\
  (assign_verdict ds gs = Invalid <->
     ds <> [] /\ (~ valid_license_in ds \/ error_in gs)) /\
  (assign_verdict ds gs = Missing <-> ds = []).
Proof.
  rewrite <- has_valid_license_iff, <- has_error_iff.
  unfold assign_verdict. destruct ds as [|d ds'].
  - cbn. repeat split; try discriminate; try tauto;
      intuition (try discriminate; try congruence).
  - destruct (has_valid_license (d :: ds')), (has_error gs); cbn;
      repeat split; try discriminate; try congruence; try tauto;
      intuition (try discriminate; try congruence).
Qed.

Lemma scan_file_fields cfg p d content :
  let r := scan_file cfg p d content in
  fr_path r = p /\
  fr_verdict r = assign_verdict (fr_declarations r) (fr_diagnostics r).
Proof.
  unfold scan_file. destruct (tokenize d p content) as [blocks tgs].
  destruct (parse_declarations _ _ _ _) as [ds pgs]. cbn. auto.
Qed.

Lemma insert_by_path_perm f l : Permutation (insert_by_path f l) (f :: l).
Proof.
  induction l as [|g rest IH]; cbn; [reflexivity|].
  destruct (String.leb (fst f) (fst g)); [reflexivity|].
  rewrite IH. apply perm_swap.
Qed.

Lemma sort_by_path_perm l : Permutation (sort_by_path l) l.
Proof.
  induction l as [|f rest IH]; cbn; [reflexivity|].
  rewrite insert_by_path_perm. now constructor.
Qed.

Lemma in_scan_entry cfg f r :
  In r (scan_entry cfg f) <->
  exists d, classify cfg (fst f) (snd f) = Some d /\ r = scan_file cfg (fst f) d (snd f).
Proof.
  unfold scan_entry. destruct (classify cfg (fst f) (snd f)) as [d|]; cbn.
  - split.
    + intros [H|[]]. exists d. auto.
    + intros [d' [E H]]. inversion E; subst. auto.
  - split; [tauto|]. intros [d' [E _]]. discriminate E.
Qed.

Lemma in_scan_files cfg files r :
  In r (rep_files (scan cfg files)) <->
  exists f d, In f files /\ classify cfg (fst f) (snd f) = Some d /\
              r = scan_file cfg (fst f) d (snd f).
Proof.
  unfold scan. cbn [rep_files]. rewrite in_flat_map. split.
  - intros [f [Hin Hr]]. apply in_scan_entry in Hr. destruct Hr as [d [Hc Hr]].
    exists f, d. split; [|auto].
    eapply Permutation_in; [apply sort_by_path_perm | exact Hin].
  - intros [f [d [Hin [Hc Hr]]]]. exists f. split.
    + eapply Permutation_in; [symmetry; apply sort_by_path_perm | exact Hin].
    + apply in_scan_entry. exists d. auto.
Qed.

Lemma verdict_eqb_eq a b : verdict_eqb a b = true <-> a = b.
Proof. destruct a, b; cbn; split; congruence. Qed.

Lemma overall_of_pass rs :
  overall_of rs = Pass <-> (forall r, In r rs -> fr_verdict r = Compliant).
Proof.
  unfold overall_of.
  destruct (forallb (fun r => verdict_eqb (fr_verdict r) Compliant) rs) eqn:E.
  - split; [|reflexivity]. intros _ r Hin.
    rewrite forallb_forall in E. apply verdict_eqb_eq, E, Hin.
  - split; [discriminate|]. intros H. exfalso.
    assert (forallb (fun r => verdict_eqb (fr_verdict r) Compliant) rs = true).
    { apply forallb_forall. intros r Hin. apply verdict_eqb_eq, H, Hin. }
    congruence.
Qed.

Lemma overall_of_ext rs1 rs2 :
  (forall r, In r rs1 <-> In r rs2) -> overall_of rs1 = overall_of rs2.
Proof.
  intros H.
  destruct (overall_of rs1) eqn:E1, (overall_of rs2) eqn:E2; try reflexivity.
  - pose proof (proj1 (overall_of_pass rs1) E1) as P1.
    assert (overall_of rs2 = Pass) by (apply overall_of_pass; intros r Hr; apply P1, H, Hr).
    congruence.
  - pose proof (proj1 (overall_of_pass rs2) E2) as P2.
    assert (overall_of rs1 = Pass) by (apply overall_of_pass; intros r Hr; apply P2, H, Hr).
    congruence.
Qed.

(** C4: the verdict of every scanned file is compliant iff a valid
    License-Identifier declaration exists and no error diagnostic was
    recorded; invalid iff declarations exist but none is a valid
    License-Identifier declaration or an error diagnostic exists; missing iff
    it has no declaration (results exist for eligible files only).  The
    overall verdict is pass iff every eligible file is compliant, fail
    otherwise, and is the same with the ineligible files left out. *)
Theorem verdict_assignment (cfg : Config) :
  (forall p d content,
     let r := scan_file cfg p d content in
     (fr_verdict r = Compliant <->
        valid_license_in (fr_declarations r) /\ ~ error_in (fr_diagnostics r)) /\
     (fr_verdict r = Invalid <->
        fr_declarations r <> [] /\
        (~ valid_license_in (fr_declarations r) \/ error_in (fr_diagnostics r))) /\
     (fr_verdict r = Missing <-> fr_declarations r = [])) /\
  (forall files,
     let rep := scan cfg files in
     (forall r, In r (rep_files rep) <->
        exists f d, In f files /\ classify cfg (fst f) (snd f) = Some d /\
                    r = scan_file cfg (fst f) d (snd f)) /\
     (rep_overall rep = Pass <->
        forall f d, In f files -> classify cfg (fst f) (snd f) = Some d ->
                    fr_verdict (scan_file cfg (fst f) d (snd f)) = Compliant) /\
     (rep_overall rep <> Pass <-> rep_overall rep = Fail) /\
     rep_overall rep = rep_overall (scan cfg (filter (eligible cfg) files))).
Proof.
  split.
  - intros p d content r.
    destruct (scan_file_fields cfg p d content) as [_ Hv]. fold r in Hv.
    rewrite Hv. apply assign_verdict_spec.
  - intros files rep. split; [apply in_scan_files|]. split; [|split].
    + unfold rep, scan. cbn [rep_overall]. rewrite overall_of_pass. split.
      * intros H f d Hin Hc. apply H. apply (in_scan_files cfg files). eauto.
      * intros H r Hr. apply (in_scan_files cfg files) in Hr.
        destruct Hr as [f [d [Hin [Hc Hr]]]]. subst r. eauto.
    + destruct (rep_overall rep); split; congruence.
    + change (overall_of (rep_files (scan cfg files)) =
              overall_of (rep_files (scan cfg (filter (eligible cfg) files)))).
      apply overall_of_ext. intros r.
      rewrite (in_scan_files cfg files r), (in_scan_files cfg _ r).
      split; intros [f [d [Hin [Hc Hr]]]]; exists f, d.
      * split; [|auto]. apply filter_In. split; [exact Hin|].
        unfold eligible. rewrite Hc. reflexivity.
      * split; [|auto]. apply filter_In in Hin. tauto.
Qed.

End Verdicts.

(** ** Determinism of the report *)

Section Determinism.
Import Scanner.

Lemma string_leb_trans s1 s2 s3 :
  String.leb s1 s2 = true -> String.leb s2 s3 = true -> String.leb s1 s3 = true.
Proof.
  unfold String.leb. revert s2 s3.
  induction s1 as [|a s1 IH]; intros [|b s2] [|c s3]; cbn; try congruence.
  unfold Ascii.compare.
  destruct (N.compare_spec (N_of_ascii a) (N_of_ascii b)) as [E1|L1|G1];
    destruct (N.compare_spec (N_of_ascii b) (N_of_ascii c)) as [E2|L2|G2];
    destruct (N.compare_spec (N_of_ascii a) (N_of_ascii c)) as [E3|L3|G3];
    try congruence; try lia; auto.
  apply IH.
Qed.

Lemma insert_by_path_sorted f l :
  StronglySorted path_le l -> StronglySorted path_le (insert_by_path f l).
Proof.
  induction l as [|g rest IH]; intros Hs; cbn.
  - constructor; constructor.
  - inversion Hs as [|g' rest' Hrest Hall]; subst.
    destruct (String.leb (fst f) (fst g)) eqn:E.
    + constructor; [exact Hs|]. constructor; [exact E|].
      eapply Forall_impl; [|exact Hall]. intros h Hh.
      unfold path_le in *. eapply string_leb_trans; eauto.
    + constructor; [auto|].
      assert (Hgf : path_le g f).
      { unfold path_le. destruct (String.leb_total (fst f) (fst g)); congruence. }
      eapply Permutation_Forall; [symmetry; apply insert_by_path_perm|].
      constructor; assumption.
Qed.

Lemma sort_by_path_sorted l : StronglySorted path_le (sort_by_path l).
Proof.
  induction l; cbn; [constructor | now apply insert_by_path_sorted].
Qed.

(** A list of files with distinct paths has one sorted arrangement. *)
Lemma sorted_arrangement_unique l1 :
  forall l2,
    NoDup (map fst l1) -> Permutation l1 l2 ->
    StronglySorted path_le l1 -> StronglySorted path_le l2 -> l1 = l2.
Proof.
  induction l1 as [|a l1 IH]; intros l2 Hnd Hp Hs1 Hs2.
  - apply Permutation_nil in Hp. now subst.
  - destruct l2 as [|b l2].
    { symmetry in Hp. apply Permutation_nil in Hp. discriminate Hp. }
    inversion Hs1 as [|? ? Hs1' Ha]; subst.
    inversion Hs2 as [|? ? Hs2' Hb]; subst.
    inversion Hnd as [|? ? Hnotin Hnd']; subst.
    assert (Hab : a = b).
    { assert (Hin_a : In a (b :: l2)) by (eapply Permutation_in; [exact Hp | now left]).
      assert (Hin_b : In b (a :: l1))
        by (eapply Permutation_in; [symmetry; exact Hp | now left]).
      destruct Hin_a as [E|Hin_a]; [now symmetry|].
      destruct Hin_b as [E|Hin_b]; [exact E|].
      exfalso. apply Hnotin.
      rewrite Forall_forall in Ha, Hb.
      assert (E : fst a = fst b)
        by (apply String.leb_antisym; [apply Ha, Hin_b | apply Hb, Hin_a]).
      rewrite E. now apply in_map. }
    subst b. f_equal. apply IH; auto.
    eapply Permutation_cons_inv; exact Hp.
Qed.

Lemma sort_by_path_unique fs1 fs2 :
  NoDup (map fst fs1) -> Permutation fs1 fs2 -> sort_by_path fs1 = sort_by_path fs2.
Proof.
  intros Hnd Hp. apply sorted_arrangement_unique.
  - eapply Permutation_NoDup; [|exact Hnd].
    apply Permutation_map. symmetry. apply sort_by_path_perm.
  - rewrite sort_by_path_perm, Hp. symmetry. apply sort_by_path_perm.
  - apply sort_by_path_sorted.
  - apply sort_by_path_sorted.
Qed.

Lemma results_sorted cfg l :
  StronglySorted path_le l -> StronglySorted result_le (flat_map (scan_entry cfg) l).
Proof.
  induction l as [|f rest IH]; intros Hs; cbn; [constructor|].
  inversion Hs as [|? ? Hrest Hall]; subst.
  unfold scan_entry at 1. destruct (classify cfg (fst f) (snd f)) as [d|]; cbn; [|auto].
  constructor; [auto|].
  apply Forall_forall. intros r Hr. apply in_flat_map in Hr.
  destruct Hr as [g [Hg Hr]]. apply in_scan_entry in Hr. destruct Hr as [d' [_ Hr]].
  subst r. unfold result_le.
  rewrite (proj1 (scan_file_fields cfg (fst f) d (snd f))).
  rewrite (proj1 (scan_file_fields cfg (fst g) d' (snd g))).
  rewrite Forall_forall in Hall. apply Hall, Hg.
Qed.

Lemma filter_perm {A} (f : A -> bool) l l' :
  Permutation l l' -> Permutation (filter f l) (filter f l').
Proof.
  induction 1 as [|x l l' _ IH|x y l|l l' l'' _ IH1 _ IH2]; cbn.
  - constructor.
  - destruct (f x); [now constructor | exact IH].
  - destruct (f x), (f y); try reflexivity. apply perm_swap.
  - now rewrite IH1.
Qed.

Lemma filter_paths_nodup (f : string * string -> bool) l :
  NoDup (map fst l) -> NoDup (map fst (filter f l)).
Proof.
  induction l as [|x rest IH]; cbn; intros Hnd; [constructor|].
  inversion Hnd as [|? ? Hnotin Hnd']; subst.
  destruct (f x); [|auto]. cbn. constructor; [|auto].
  intros Hin. apply Hnotin. apply in_map_iff in Hin. destruct Hin as [g [Eg Hg]].
  apply filter_In in Hg. apply in_map_iff. exists g. tauto.
Qed.

(** The paths of the results are those of the eligible files, in the order
    the files are taken. *)
Lemma result_paths cfg l :
  map fr_path (flat_map (scan_entry cfg) l) = map fst (filter (eligible cfg) l).
Proof.
  induction l as [|f rest IH]; [reflexivity|].
  cbn [flat_map filter]. rewrite map_app, IH. unfold scan_entry, eligible.
  destruct (classify cfg (fst f) (snd f)) as [d|]; [|reflexivity].
  cbn [map app]. now rewrite (proj1 (scan_file_fields cfg (fst f) d (snd f))).
Qed.

Lemma report_paths cfg files :
  Permutation (map fr_path (rep_files (scan cfg files)))
              (map fst (filter (eligible cfg) files)).
Proof.
  unfold scan. cbn [rep_files]. rewrite result_paths.
  apply Permutation_map, filter_perm, sort_by_path_perm.
Qed.

(** C5: the report does not depend on the order in which the files of the
    tree are enumerated: two scans of the same tree under the same
    configuration give the same report and byte-identical JSON.  The report
    lists the eligible files of the tree, each once with the result of its
    own scan and none besides, in lexicographic path order. *)
Theorem scan_deterministic (cfg : Config) (fs1 fs2 : list (string * string)) :
  NoDup (map fst fs1) ->
  Permutation fs1 fs2 ->
  to_json (scan cfg fs1) = to_json (scan cfg fs2) /\
  scan cfg fs1 = scan cfg fs2 /\
  StronglySorted result_le (rep_files (scan cfg fs1)) /\
  Permutation (map fr_path (rep_files (scan cfg fs1)))
              (map fst (filter (eligible cfg) fs1)) /\
  NoDup (map fr_path (rep_files (scan cfg fs1))) /\
  (forall r, In r (rep_files (scan cfg fs1)) <->
     exists f d, In f fs1 /\ classify cfg (fst f) (snd f) = Some d /\
                 r = scan_file cfg (fst f) d (snd f)).
Proof.
  intros Hnd Hp.
  assert (E : scan cfg fs1 = scan cfg fs2).
  { unfold scan. rewrite (sort_by_path_unique fs1 fs2 Hnd Hp). reflexivity. }
  split; [now rewrite E|]. split; [exact E|]. split; [|split; [|split]].
  - unfold scan. cbn [rep_files]. apply results_sorted, sort_by_path_sorted.
  - apply report_paths.
  - eapply Permutation_NoDup; [symmetry; apply report_paths|].
    now apply filter_paths_nodup.
  - apply in_scan_files.
Qed.

(** Two files enumerated in both orders. *)
Lemma scan_deterministic_witness :
  let fs1 := [("b.c", "int b;"); ("a.c", "// SPDX-License-Identifier: MIT")] in
  let fs2 := [("a.c", "// SPDX-License-Identifier: MIT"); ("b.c", "int b;")] in
  NoDup (map fst fs1) /\ Permutation fs1 fs2 /\
  to_json (scan default_config fs1) = to_json (scan default_config fs2) /\
  Permutation (map fr_path (rep_files (scan default_config fs1))) ["b.c"; "a.c"].
Proof.
  cbv zeta.
  assert (Hnd : NoDup (map fst [("b.c", "int b;"); ("a.c", "// SPDX-License-Identifier: MIT")])).
  { cbn. constructor; [|constructor; [|constructor]]; cbn; intuition discriminate. }
  split; [exact Hnd|]. split; [apply perm_swap|].
  destruct (scan_deterministic default_config _ _ Hnd
              (perm_swap ("a.c", "// SPDX-License-Identifier: MIT") ("b.c", "int b;") []))
    as [Hj [_ [_ [Hpaths _]]]].
  split; [exact Hj | exact Hpaths].
Defined.

End Determinism.

(** ** Duplicate License-Identifier tags *)

Section Duplicates.
Import Scanner.

Variables (strict : bool) (known : list string) (p : string).






End Duplicates.

Section DuplicateClaims.
Import Scanner.



End DuplicateClaims.

(** ** Unterminated block comments *)

Section Unterminated.
Import Scanner.

Lemma scan_lines_app d st ln off l1 l2 :
  snd (scan_lines d st ln off (l1 ++ l2)) =
  snd (scan_lines d (snd (scan_lines d st ln off l1))
                  (ln + List.length l1) (off + span l1) l2).
Proof.
  revert st ln off. induction l1 as [|s l1 IH]; intros st ln off.
  - cbn. now rewrite !Nat.add_0_r.
  - change (span (s :: l1)) with (String.length s + 1 + span l1).
    cbn [app scan_lines List.length].
    replace (ln + S (List.length l1)) with (S ln + List.length l1) by lia.
    replace (off + (String.length s + 1 + span l1))
      with (off + String.length s + 1 + span l1) by lia.
    destruct (scan_line d st ln off s) as [here st'].
    specialize (IH st' (S ln) (off + String.length s + 1)).
    destruct (scan_lines d st' (S ln) (off + String.length s + 1) (l1 ++ l2)) as [b1 f1].
    destruct (scan_lines d st' (S ln) (off + String.length s + 1) l1) as [b2 f2].
    cbn [snd] in *. exact IH.
Qed.

(** A text that does not hold [c] holds it in none of its suffixes. *)
Lemma find_none_tail c a s : find c (String a s) = None -> find c s = None.
Proof.
  unfold find. cbn [String.index].
  destruct (String.prefix c (String a s)); [discriminate|].
  destruct (String.index 0 c s); [discriminate | reflexivity].
Qed.

Lemma find_none_drop c n s : find c s = None -> find c (drop n s) = None.
Proof.
  revert s. induction n as [|n IH]; intros s H; [destruct s; exact H|].
  destruct s as [|a s]; [exact H|]. cbn [drop]. apply IH.
  eapply find_none_tail; exact H.
Qed.

Lemma find_none_ltrim c s : find c s = None -> find c (ltrim s) = None.
Proof.
  induction s as [|a s IH]; intros H; [exact H|].
  cbn [ltrim]. destruct (is_space a); [|exact H].
  apply IH. eapply find_none_tail; exact H.
Qed.

Lemma find_opener_in delims body o c :
  find_opener delims body = Some (o, c) -> In (o, c) delims.
Proof.
  induction delims as [|[o' c'] rest IH]; cbn; [discriminate|].
  destruct (String.prefix o' body).
  - intros E. inversion E; subst. now left.
  - intros E. right. now apply IH.
Qed.

Lemma find_opener_some delims body o c :
  In (o, c) delims -> String.prefix o body = true ->
  exists oc, find_opener delims body = Some oc.
Proof.
  induction delims as [|[o' c'] rest IH]; cbn; [tauto|].
  intros [E|Hin] Hp.
  - inversion E; subst. rewrite Hp. eauto.
  - destruct (String.prefix o' body); eauto.
Qed.

Lemma closer_free_find d s c :
  closer_free d s -> In c (map snd (block_delims d)) -> find c s = None.
Proof.
  unfold closer_free. rewrite Forall_forall. intros H Hin.
  apply in_map_iff in Hin. destruct Hin as [oc [E Hoc]]. subst c. now apply H.
Qed.

(** Whatever the line, an open block waits for a closer of the dialect. *)
Lemma scan_line_waits d st ln off s :
  waits_for_closer d st -> waits_for_closer d (snd (scan_line d st ln off s)).
Proof.
  unfold scan_line. destruct st as [ob|]; cbn [waits_for_closer]; intros Hw.
  - destruct (find (ob_closer ob) s); cbn; auto.
  - destruct (find_opener (block_delims d) (ltrim s)) as [[o c]|] eqn:Eo; cbn; auto.
    destruct (find c (drop (String.length o) (ltrim s))); cbn; auto.
    apply in_map_iff. exists (o, c). split; [reflexivity|].
    eapply find_opener_in; exact Eo.
Qed.

Lemma scan_lines_waits d st ln off ls :
  waits_for_closer d st -> waits_for_closer d (snd (scan_lines d st ln off ls)).
Proof.
  revert st ln off. induction ls as [|s rest IH]; intros st ln off Hw; [exact Hw|].
  cbn [scan_lines].
  pose proof (scan_line_waits d st ln off s Hw) as Hw'.
  destruct (scan_line d st ln off s) as [here st']. cbn [snd] in Hw'.
  specialize (IH st' (S ln) (off + String.length s + 1) Hw').
  destruct (scan_lines d st' (S ln) (off + String.length s + 1) rest) as [later final].
  exact IH.
Qed.

(** Inside a block, lines without a closer leave the block open. *)
Lemma scan_lines_stays_open d ob ln off ls :
  waits_for_closer d (Some ob) ->
  Forall (closer_free d) ls ->
  snd (scan_lines d (Some ob) ln off ls) <> None.
Proof.
  revert ob ln off. induction ls as [|s rest IH]; intros ob ln off Hw Hall.
  - cbn. discriminate.
  - inversion Hall as [|? ? Hs Hrest]; subst.
    cbn [scan_lines scan_line].
    rewrite (closer_free_find d s (ob_closer ob) Hs Hw).
    set (ob1 := mkOpen (ob_closer ob) (ob_start ob) (ob_line ob) (ob_text ob ++ nl ++ s)).
    specialize (IH ob1 (S ln) (off + String.length s + 1) Hw Hrest).
    destruct (scan_lines d (Some ob1) (S ln) (off + String.length s + 1) rest) as [b f].
    exact IH.
Qed.

(** A line that starts with an opener and holds no closer opens a block, or
    leaves the one it is in open; the lines after it keep it open. *)
Lemma scan_lines_opens d st ln off l rest :
  waits_for_closer d st ->
  starts_block d l ->
  Forall (closer_free d) (l :: rest) ->
  snd (scan_lines d st ln off (l :: rest)) <> None.
Proof.
  intros Hw [o [c [Hin Hp]]] Hall. destruct st as [ob|].
  - now apply scan_lines_stays_open.
  - inversion Hall as [|? ? Hl Hrest]; subst.
    destruct (find_opener_some _ _ _ _ Hin Hp) as [[o' c'] Eo].
    assert (Hc' : In c' (map snd (block_delims d))).
    { apply in_map_iff. exists (o', c'). split; [reflexivity|].
      eapply find_opener_in; exact Eo. }
    cbn [scan_lines scan_line]. rewrite Eo.
    rewrite (find_none_drop c' _ _ (find_none_ltrim c' l (closer_free_find d l c' Hl Hc'))).
    match goal with
    | |- context [scan_lines d (Some ?ob) ?n ?k rest] =>
        pose proof (scan_lines_stays_open d ob n k rest Hc' Hrest) as H;
        destruct (scan_lines d (Some ob) n k rest) as [b f]
    end.
    exact H.
Qed.

(** The text property suffices: the scan of such a file ends inside a
    block, whatever comes before the opener's line. *)
Lemma unclosed_opener_open_at_end d text :
  unclosed_block_opener d text ->
  snd (scan_lines d None 1 0 (lines text)) <> None.
Proof.
  intros [pre [l [rest [Hl [Hs Hall]]]]].
  rewrite Hl, scan_lines_app.
  apply scan_lines_opens; auto.
  apply scan_lines_waits. exact I.
Qed.

Lemma tokenize_unclosed d p text :
  unclosed_block_opener d text ->
  exists blocks ob, tokenize d p text = (blocks, [malformed_comment p ob]).
Proof.
  intros H. apply unclosed_opener_open_at_end in H. unfold tokenize.
  destruct (scan_lines d None 1 0 (lines text)) as [blocks [ob|]]; cbn [snd] in H.
  - eauto.
  - congruence.
Qed.

Lemma scan_file_diagnostics cfg p d text :
  fr_diagnostics (scan_file cfg p d text) =
  (snd (tokenize d p text) ++
   snd (parse_declarations (cfg_strict cfg) (cfg_known cfg) p (fst (tokenize d p text))))%list.
Proof.
  unfold scan_file. destruct (tokenize d p text) as [blocks tgs]. cbn [fst snd].
  destruct (parse_declarations _ _ _ _) as [ds pgs]. reflexivity.
Qed.

Lemma scan_add_file cfg f fs :
  Permutation (rep_files (scan cfg (f :: fs)))
              (scan_entry cfg f ++ rep_files (scan cfg fs)).
Proof.
  unfold scan. cbn [rep_files sort_by_path].
  change (scan_entry cfg f ++ flat_map (scan_entry cfg) (sort_by_path fs))%list
    with (flat_map (scan_entry cfg) (f :: sort_by_path fs)).
  apply Permutation_flat_map, insert_by_path_perm.
Qed.

(** The file of an unclosed opener gets the diagnostic and is not
    compliant. *)
Lemma unclosed_opener_result cfg d p text :
  unclosed_block_opener d text ->
  let r := scan_file cfg p d text in
  (exists g, In g (fr_diagnostics r) /\ g_kind g = MalformedComment /\
             g_severity g = SevError /\ g_path g = p) /\
  (fr_verdict r = Missing \/ fr_verdict r = Invalid) /\
  fr_verdict r <> Compliant.
Proof.
  intros Hu r. destruct (tokenize_unclosed d p text Hu) as [blocks [ob Ht]].
  assert (Hin : In (malformed_comment p ob) (fr_diagnostics r)).
  { unfold r. rewrite scan_file_diagnostics, Ht. cbn. now left. }
  assert (Herr : error_in (fr_diagnostics r))
    by (exists (malformed_comment p ob); split; [exact Hin | reflexivity]).
  pose proof (proj2 (scan_file_fields cfg p d text)) as Hv. fold r in Hv.
  destruct (assign_verdict_spec (fr_declarations r) (fr_diagnostics r)) as [Hc _].
  assert (Hnc : fr_verdict r <> Compliant)
    by (rewrite Hv; intros E; apply Hc in E; tauto).
  split; [exists (malformed_comment p ob); cbn; auto|]. split; [|exact Hnc].
  destruct (fr_verdict r); [congruence | now left | now right].
Qed.

(** C7, as stated, fails: an opener in the middle of a line is not honoured
    (section 4.1 honours block openers at the start of a line only).  The
    file below holds a block-comment opener with no closer after it, gets no
    diagnostic and is compliant. *)
Lemma midline_opener_not_diagnosed :
  (exists i, In i (occurrences "/*" unclosed_midline) /\
             forall j, In j (occurrences "*/" unclosed_midline) -> j < i) /\
  snd (tokenize c_dialect "a.c" unclosed_midline) = [] /\
  fr_diagnostics (scan_file default_config "a.c" c_dialect unclosed_midline) = [] /\
  fr_verdict (scan_file default_config "a.c" c_dialect unclosed_midline) = Compliant.
Proof.
  split; [|split; [|split]]; try (vm_compute; reflexivity).
  exists 39. split; [vm_compute; now left|].
  intros j Hj. vm_compute in Hj. destruct Hj.
Qed.

(** C7, amended: when a line of a file starts, after white space, with a
    block-comment opener and no closer occurs on that line or after it, the
    tokenizer returns its blocks with one MalformedComment diagnostic, of
    severity error, instead of failing; the file's result carries it and its
    verdict is missing or invalid, never compliant; the results of the other
    files of the run are those of the run without this file, and the run
    completes with a report that holds this file's result. *)
Theorem unterminated_comment_is_diagnosed (cfg : Config) (d : Dialect) (p text : string) :
  unclosed_block_opener d text ->
  (exists g, snd (tokenize d p text) = [g] /\
             g_kind g = MalformedComment /\ g_severity g = SevError /\ g_path g = p) /\
  (let r := scan_file cfg p d text in
   (exists g, In g (fr_diagnostics r) /\ g_kind g = MalformedComment) /\
   (fr_verdict r = Missing \/ fr_verdict r = Invalid) /\
   fr_verdict r <> Compliant) /\
  (forall fs,
     Permutation (rep_files (scan cfg ((p, text) :: fs)))
                 (scan_entry cfg (p, text) ++ rep_files (scan cfg fs))) /\
  (forall inv files known,
     inv_root inv = Some files -> inv_known inv = Some known -> In (p, text) files ->
     exists rep, run inv = Completed rep /\
       forall d', classify (config_of inv known) p text = Some d' ->
                  In (scan_file (config_of inv known) p d' text) (rep_files rep)).
Proof.
  intros Hu. destruct (tokenize_unclosed d p text Hu) as [blocks [ob Ht]].
  split; [|split; [|split]].
  - exists (malformed_comment p ob). rewrite Ht. cbn. auto.
  - intros r. destruct (unclosed_opener_result cfg d p text Hu) as [[g [Hg [Hk _]]] [Hv Hn]].
    split; [eauto|]. split; assumption.
  - intros fs. apply scan_add_file.
  - intros inv files known Hr Hk Hin. unfold run. rewrite Hr, Hk.
    eexists. split; [reflexivity|]. intros d' Hd'.
    apply in_scan_files. exists (p, text), d'. auto.
Qed.

Lemma unclosed_header_opener : unclosed_block_opener c_dialect unclosed_header.
Proof.
  exists [], "/* SPDX-License-Identifier: MIT", ["int main(void) { return 0; }"].
  split; [vm_compute; reflexivity|]. split.
  - exists "/*", "*/". split; [now left | vm_compute; reflexivity].
  - repeat constructor; vm_compute; reflexivity.
Defined.

(** A header that opens a block comment and never closes it. *)
Lemma unterminated_comment_is_diagnosed_witness :
  unclosed_block_opener c_dialect unclosed_header /\
  fr_verdict (scan_file default_config "a.c" c_dialect unclosed_header) <> Compliant.
Proof.
  split; [exact unclosed_header_opener|].
  exact (proj2 (proj2 (proj1 (proj2
    (unterminated_comment_is_diagnosed default_config c_dialect "a.c" unclosed_header
       unclosed_header_opener))))).
Defined.

End Unterminated.

(** ** Exit status *)

Section ExitStatus.
Import Scanner.







End ExitStatus.

(** ** Beyond the claims: repeated runs of [main] *)

Section MainCalls.
Import Program Runs.

(** What one execution of [main] returns, environment included. *)
Lemma main_result (w : World) :
  main w =
  (EXIT_SUCCESS,
   mkWorld (w_stdin w) (w_stdout w ++ (if w_stdout_err w then "" else main_output))
           (w_stdout_err w) (w_files w)).
Proof.
  destruct w as [i o e fs]. unfold main, bind, ret, printf. simpl.
  destruct e; simpl.
  - now rewrite append_empty_r.
  - now rewrite !append_assoc.
Qed.

(** X2: [main] keeps no state between executions.  Run [n] times in a row
    in the same environment, it returns [EXIT_SUCCESS] every time and
    standard output grows by exactly [n] copies of its three lines; when the
    stream is in error, all [n] runs still report success and the
    environment is left as it was. *)
Theorem repeated_runs (n : nat) (w : World) :
  run_times n w =
  (repeat EXIT_SUCCESS n,
   mkWorld (w_stdin w)
           (w_stdout w ++ (if w_stdout_err w then "" else copies n main_output))
           (w_stdout_err w) (w_files w)).
Proof.
  revert w. induction n as [|n IH]; intros w.
  - cbn [run_times ret repeat copies]. destruct w as [i o e fs].
    cbn [w_stdin w_stdout w_stdout_err w_files]. f_equal. f_equal.
    destruct e; now rewrite append_empty_r.
  - cbn [run_times]. unfold bind at 1. rewrite main_result.
    unfold bind at 1. rewrite IH. unfold ret.
    cbn [w_stdin w_stdout w_stdout_err w_files repeat copies].
    f_equal. f_equal.
    destruct (w_stdout_err w).
    + now rewrite !append_empty_r.
    + now rewrite !append_assoc.
Qed.

End MainCalls.
